(** * grid: operator registry, instance start-up and actor identities

    A shallow embedding of [grid.go] (the Grid coordinator) and of the actor
    definition file that accompanies it.  Sequential code is embedded as
    functions that pass the mutated [Grid] along; the goroutines of [merge]
    and of the de-multiplexer in [startinst] are embedded as interleaving
    transition systems driven by an explicit schedule. *)

From Stdlib Require Import ZArith Lia Ascii String.
From stdpp Require Import gmap strings list fin_maps.

Local Open Scope Z_scope.

(** ** Go machine integers *)

(** Go's [int] on the 64-bit targets the library is built for. *)
Definition int_min : Z := - 2 ^ 63.
Definition int_max : Z := 2 ^ 63 - 1.

Definition is_int (x : Z) : Prop := int_min ≤ x ≤ int_max.

(** Two's complement wrap-around of [int] arithmetic. *)
Definition wrap_int (x : Z) : Z := (x + 2 ^ 63) `mod` 2 ^ 64 - 2 ^ 63.

(** [a / b] on [int]: truncated towards zero. *)
Definition int_div (a b : Z) : Z := wrap_int (a `quot` b).

Definition int_add (a b : Z) : Z := wrap_int (a + b).

(** The conversion [uint32(x)] keeps the low 32 bits. *)
Definition uint32 (x : Z) : Z := x `mod` 2 ^ 32.

(** ** Actor definitions *)

Module Actor.

Inductive Err : Set :=
| ErrReceiverBusy
| ErrUnknownMailbox
| ErrContextFinished
| ErrInvalidActorType
| ErrInvalidActorName
| ErrInvalidActorNamespace.

(** [Type] is reserved, the field is spelled [Type_]. *)
Record ActorDef : Set := mkActorDef {
  id : string;
  Type_ : string;
  Name : string;
  namespace : string
}.

Definition NewActorDef (name : string) : ActorDef :=
  {| id := EmptyString; Type_ := name; Name := name; namespace := EmptyString |}.

(** [fmt.Sprintf("%v-%v", a, b)] on two strings. *)
Definition sprintf_dash (a b : string) : string := a +:+ "-" +:+ b.

(** [ID] has a pointer receiver: it returns the string together with the
    updated definition. *)
Definition ID (a : ActorDef) : string * ActorDef :=
  if decide (id a = EmptyString) then
    let s := sprintf_dash (namespace a) (Name a) in
    (s, {| id := s; Type_ := Type_ a; Name := Name a;
           namespace := namespace a |})
  else (id a, a).

(** What code holding an [*ActorDef] can do to it between calls of [ID]. *)
Inductive call : Set :=
| SetType (s : string)
| SetName (s : string)
| SetNamespace (s : string)
| CallID.

(** Runs the calls in order; returns what every [CallID] returned. *)
Fixpoint run (cs : list call) (a : ActorDef) : list string * ActorDef :=
  match cs with
  | [] => ([], a)
  | SetType s :: cs' =>
      run cs' {| id := id a; Type_ := s; Name := Name a;
                 namespace := namespace a |}
  | SetName s :: cs' =>
      run cs' {| id := id a; Type_ := Type_ a; Name := s;
                 namespace := namespace a |}
  | SetNamespace s :: cs' =>
      run cs' {| id := id a; Type_ := Type_ a; Name := Name a;
                 namespace := s |}
  | CallID :: cs' =>
      let '(r, a') := ID a in
      let '(rs, a'') := run cs' a' in
      (r :: rs, a'')
  end.

Section Validate.

(** [isNameValid] is declared in another file of the package;
    [ValidateActorDef] only calls it. *)
Variable isNameValid : string → bool.

Definition ValidateActorDef (def : ActorDef) : option Err :=
  if negb (isNameValid (Type_ def)) then Some ErrInvalidActorType
  else if negb (isNameValid (Name def)) then Some ErrInvalidActorName
  else if negb (isNameValid (namespace def))
       then Some ErrInvalidActorNamespace
  else None.

End Validate.

(** Go's [unicode.IsSpace] on the ASCII range: tab, line feed, vertical tab,
    form feed, carriage return and space. *)
Definition is_space (c : ascii) : bool :=
  let k := nat_of_ascii c in
  ((9 <=? k) && (k <=? 13) || (k =? 32))%nat.

Fixpoint no_space (s : string) : bool :=
  match s with
  | EmptyString => true
  | String c s' => negb (is_space c) && no_space s'
  end.

(** Modelled from the spec: [isNameValid] is missing from the sources; the
    specification's name grammar is "no whitespace, non-empty". *)
Definition isNameValid (s : string) : bool :=
  match s with
  | EmptyString => false
  | _ => no_space s
  end.

End Actor.

(** ** The Grid coordinator *)

Module Coord.

(** The payload of a Go [error] returned by the log collaborator. *)
Definition LogError : Set := string.

(** The [ReadWriteLog] interface is declared outside [grid.go].  The
    coordinator only looks at the topics that have a decoder or an encoder
    and at the partitions of a topic; [Partitions] returns the partition ids
    ([[]int32]) or an error. *)
Record ReadWriteLog : Type := mkLog {
  DecodedTopics : gset string;
  EncodedTopics : gset string;
  Partitions : string → LogError + list Z
}.

(** Modelled from the spec: the implementation of [AddDecoder] is missing
    from the sources; it registers a codec for every listed topic, which
    [DecodedTopics] then reports. *)
Definition log_AddDecoder (topics : list string) (l : ReadWriteLog)
  : ReadWriteLog :=
  {| DecodedTopics := list_to_set topics ∪ DecodedTopics l;
     EncodedTopics := EncodedTopics l;
     Partitions := Partitions l |}.

(** Modelled from the spec: the implementation of [AddEncoder] is missing
    from the sources; it registers a codec for every listed topic, which
    [EncodedTopics] then reports. *)
Definition log_AddEncoder (topics : list string) (l : ReadWriteLog)
  : ReadWriteLog :=
  {| DecodedTopics := DecodedTopics l;
     EncodedTopics := list_to_set topics ∪ EncodedTopics l;
     Partitions := Partitions l |}.

(** The user function [func(in <-chan Event) <-chan Event] is only stored and
    called; it is represented by a label. *)
Definition OpFunc : Set := string.

Record op : Type := mkOp {
  n : Z;
  f : OpFunc;
  inputs : gmap string bool
}.

(** A channel on which nothing is ever sent: all that matters is whether it
    has been closed. *)
Inductive chan_state : Set := Open | Closed.

(** A [metrics.Registry] value; the field is [None] while it is nil. *)
Inductive Registry : Set :=
| DefaultRegistry
| UserRegistry (name : string).

Record Grid : Type := mkGrid {
  log : ReadWriteLog;
  gridname : string;
  cmdtopic : string;
  npeers : Z;
  quorum : Z;
  parts : gmap string (list Z);
  ops : gmap string op;
  wg : Z;
  exit : chan_state;
  registry : option Registry;
  maxleadertime : Z
}.

Definition set_log (l : ReadWriteLog) (g : Grid) : Grid :=
  mkGrid l (gridname g) (cmdtopic g) (npeers g) (quorum g) (parts g) (ops g)
         (wg g) (exit g) (registry g) (maxleadertime g).

Definition set_parts (p : gmap string (list Z)) (g : Grid) : Grid :=
  mkGrid (log g) (gridname g) (cmdtopic g) (npeers g) (quorum g) p (ops g)
         (wg g) (exit g) (registry g) (maxleadertime g).

Definition set_ops (o : gmap string op) (g : Grid) : Grid :=
  mkGrid (log g) (gridname g) (cmdtopic g) (npeers g) (quorum g) (parts g) o
         (wg g) (exit g) (registry g) (maxleadertime g).

Definition set_wg (c : Z) (g : Grid) : Grid :=
  mkGrid (log g) (gridname g) (cmdtopic g) (npeers g) (quorum g) (parts g)
         (ops g) c (exit g) (registry g) (maxleadertime g).

Definition set_exit (c : chan_state) (g : Grid) : Grid :=
  mkGrid (log g) (gridname g) (cmdtopic g) (npeers g) (quorum g) (parts g)
         (ops g) (wg g) c (registry g) (maxleadertime g).

Definition set_registry (r : option Registry) (g : Grid) : Grid :=
  mkGrid (log g) (gridname g) (cmdtopic g) (npeers g) (quorum g) (parts g)
         (ops g) (wg g) (exit g) r (maxleadertime g).

(** *** Construction *)

(** The fields of [KafkaConfig] that the constructor writes. *)
Record KafkaConfig : Set := mkKafkaConfig {
  Brokers : list string;
  kcmdtopic : string;
  basename : string
}.

Definition AddDecoder (topics : list string) (g : Grid) : Grid :=
  set_log (log_AddDecoder topics (log g)) g.

Definition AddEncoder (topics : list string) (g : Grid) : Grid :=
  set_log (log_AddEncoder topics (log g)) g.

Definition UseMetrics (r : option Registry) (g : Grid) : Grid :=
  set_registry r g.

Section Construction.

(** [buildPeerName] and [NewKafkaReadWriteLog] live outside [grid.go]; the
    latter opens the connection to the brokers and may fail. *)
Variable buildPeerName : Z → string.
Variable NewKafkaReadWriteLog :
  string → KafkaConfig → LogError + ReadWriteLog.

Definition NewWithKafkaConfig (gridname : string) (npeers : Z)
    (kconfig : KafkaConfig) : LogError + Grid :=
  let cmdtopic := gridname +:+ "-cmd" in
  let kconfig :=
    {| Brokers := Brokers kconfig; kcmdtopic := cmdtopic;
       basename := gridname |} in
  match NewKafkaReadWriteLog (buildPeerName 0) kconfig with
  | inl err => inl err
  | inr rwlog =>
      let g :=
        {| log := rwlog;
           gridname := gridname;
           cmdtopic := cmdtopic;
           npeers := npeers;
           quorum := uint32 (int_add (int_div npeers 2) 1);
           parts := ∅;
           ops := ∅;
           wg := 0;
           exit := Open;
           registry := None;
           maxleadertime := 0 |} in
      let g := set_wg (wg g + 1) g in
      let g := AddDecoder [cmdtopic] g in
      let g := AddEncoder [cmdtopic] g in
      inr g
  end.

End Construction.

(** *** Start, Wait and Stop *)

(** Calls that [Start] and [startinst] make on their collaborators, in the
    order they are made. *)
Inductive Call : Set :=
| NewVoter (peer : Z)
| NewManager (peer : Z)
| LogRead (topic : string) (partitions : list Z)
| VoterStateMachine
| ManagerStateMachine
| LogWrite (topic : string).

(** [Start] returns the grid as it leaves it, the calls it made and its
    [error] result. *)
Definition Start (g : Grid) : Grid * list Call * option string :=
  let g :=
    match registry g with
    | None => set_registry (Some DefaultRegistry) g
    | Some _ => g
    end in
  let cmdpart := [0] in
  (g,
   [ NewVoter 0; NewManager 0;
     LogRead (cmdtopic g) cmdpart; VoterStateMachine; LogWrite (cmdtopic g);
     LogRead (cmdtopic g) cmdpart; ManagerStateMachine; LogWrite (cmdtopic g) ],
   None).

(** [Start] called [k] times in a row: the final grid, all calls made, and
    the result of every call. *)
Fixpoint Start_times (k : nat) (g : Grid)
  : Grid * list Call * list (option string) :=
  match k with
  | O => (g, [], [])
  | S k' =>
      let '(g1, cs, r) := Start g in
      let '(g2, cs', rs) := Start_times k' g1 in
      (g2, cs ++ cs', r :: rs)
  end.

Inductive Panic : Set :=
| CloseOfClosedChannel
| NegativeWaitGroupCounter.

(** [sync.WaitGroup.Done]: the counter is decremented, and a negative
    counter panics. *)
Definition wg_Done (g : Grid) : Grid * option Panic :=
  let c := wg g - 1 in
  (set_wg c g, if c <? 0 then Some NegativeWaitGroupCounter else None).

(** [Wait] returns once the counter is zero; [true] when it does. *)
Definition Wait (g : Grid) : bool := wg g =? 0.

(** A panic unwinds [Stop] at the statement that raised it. *)
Definition Stop (g : Grid) : Grid * option Panic :=
  match exit g with
  | Closed => (g, Some CloseOfClosedChannel)
  | Open => wg_Done (set_exit Closed g)
  end.

(** *** Add *)

Inductive AddError : Set :=
| AlreadyAdded (fname : string)
| NoDecoder (topic : string)
| PartitionsFailed (topic : string) (err : LogError)
| TooManyPartitions (topic fname : string) (len : Z).

(** The loop over [topics]: it writes [op.inputs] and [g.parts] as it goes
    and stops at the first failing check. *)
Fixpoint Add_topics (l : ReadWriteLog) (fname : string) (n : Z)
    (topics : list string) (ins : gmap string bool)
    (ps : gmap string (list Z))
  : gmap string bool * gmap string (list Z) * option AddError :=
  match topics with
  | [] => (ins, ps, None)
  | topic :: rest =>
      if decide (topic ∈ DecodedTopics l) then
        let ins := <[topic := true]> ins in
        match Partitions l topic with
        | inl err => (ins, ps, Some (PartitionsFailed topic err))
        | inr found =>
            let ps := <[topic := found]> ps in
            if Z.of_nat (length found) >? n
            then (ins, ps,
                  Some (TooManyPartitions topic fname
                          (Z.of_nat (length found))))
            else Add_topics l fname n rest ins ps
        end
      else (ins, ps, Some (NoDecoder topic))
  end.

Definition Add (g : Grid) (fname : string) (n : Z) (f : OpFunc)
    (topics : list string) : Grid * option AddError :=
  match ops g !! fname with
  | Some _ => (g, Some (AlreadyAdded fname))
  | None =>
      let '(ins, ps, err) := Add_topics (log g) fname n topics ∅ (parts g) in
      let g := set_parts ps g in
      match err with
      | Some e => (g, Some e)
      | None =>
          (set_ops (<[fname := {| n := n; f := f; inputs := ins |}]> (ops g))
                   g,
           None)
      end
  end.

(** What makes the loop of [Add] stop at a topic: no decoder, a failed
    partition discovery, or more partitions than [n]. *)
Definition topic_rejected (l : ReadWriteLog) (n : Z) (topic : string)
  : Prop :=
  topic ∉ DecodedTopics l
  ∨ (∃ err, Partitions l topic = inl err)
  ∨ (∃ found, Partitions l topic = inr found
              ∧ n < Z.of_nat (length found)).

(** *** The checks at the start of startinst *)

(** The [Instance] struct is declared outside [grid.go]; these are the
    fields [startinst] reads. *)
Record Instance : Type := mkInstance {
  Fname : string;
  Id : Z;
  TopicSlices : gmap string (list Z)
}.

(** [log.Fatalf] ends the process. *)
Inductive Fatal : Set :=
| FatalDoesNotExist (fname : string)
| FatalNotReader (fname topic : string)
| FatalNotWriter (fname topic : string).

(** The loop over [inst.TopicSlices], in the order the map yields its
    entries; [ins] collects the readers opened so far. *)
Fixpoint open_readers (o : op) (fname : string)
    (slices : list (string * list Z)) (ins : list Call)
  : Fatal + list Call :=
  match slices with
  | [] => inr ins
  | (topic, ps) :: rest =>
      if negb (default false (inputs o !! topic))
      then inl (FatalNotReader fname topic)
      else open_readers o fname rest (ins ++ [LogRead topic ps])
  end.

(** [startinst] up to the call of [merge]: either the process is ended or
    the readers to merge are returned.  Go ranges over a map in an order
    of its own choosing, [order] is that order. *)
Definition startinst_inputs (g : Grid) (inst : Instance)
    (order : list (string * list Z)) : Fatal + list Call :=
  let fname := Fname inst in
  match ops g !! fname with
  | None => inl (FatalDoesNotExist fname)
  | Some o => open_readers o fname order []
  end.

End Coord.

(** ** Events and channels *)

(** Modelled from the spec: the [Event] interface is declared in another
    file of the package; the specification gives an event a topic, a partition,
    an offset, a key and a decoded message. *)
Record Event : Set := mkEvent {
  Topic : string;
  Part : Z;
  Offset : Z;
  Key : string;
  Message : string
}.

(** [make(chan Event, 1024)] *)
Definition capacity : nat := 1024.

(** ** merge: fan-in of the input streams *)

Module Merge.

(** An input channel, as what it delivers: the events its producer sends
    on it, oldest first, and whether the producer closes it after the
    last one.  A channel that is left open blocks its reader once it is
    empty. *)
Record input : Set := mkInput {
  events : list Event;
  closes : bool
}.

(** Where one of the goroutines started by [merge] stands: at the head of
    [for m := range in], at [merged <- m], at [meter.Mark(1)], or past the
    loop because its input was closed. *)
Inductive pc : Set :=
| Receiving
| Sending (m : Event)
| Marking
| Finished.

(** A goroutine together with what is left of its input channel. *)
Abbreviation goroutine := (pc * input)%type.

Record state : Type := mkState {
  gors : list goroutine;
  (** the buffer of [merged], oldest event first *)
  merged : list Event;
  (** the meters of the registry with their counts *)
  meters : gmap string Z;
  (** what the reader of [merged] has received so far *)
  received : list Event
}.

Definition meter_name (fname : string) : string := fname +:+ "-msg-rate".

(** [metrics.GetOrRegisterMeter]: a meter that exists is kept, with its
    count; a new one starts at zero. *)
Definition GetOrRegisterMeter (name : string) (r : gmap string Z)
  : gmap string Z :=
  match r !! name with
  | Some _ => r
  | None => <[name := 0]> r
  end.

Definition count (name : string) (r : gmap string Z) : Z :=
  default 0 (r !! name).

Definition Mark (name : string) (k : Z) (r : gmap string Z) : gmap string Z :=
  <[name := count name r + k]> r.

(** The state [merge] leaves behind when it returns: one goroutine per
    input, an empty buffer. *)
Definition merge (fname : string) (r : gmap string Z) (ins : list input)
  : state :=
  {| gors := (λ i, (Receiving, i)) <$> ins;
     merged := [];
     meters := GetOrRegisterMeter (meter_name fname) r;
     received := [] |}.

(** Who moves next: the goroutine of input [i], or the reader of the merged
    stream. *)
Inductive actor : Set :=
| Worker (i : nat)
| Reader.

Definition set_gor (i : nat) (w : goroutine) (s : state) : state :=
  {| gors := <[i := w]> (gors s); merged := merged s; meters := meters s;
     received := received s |}.

(** One step of a goroutine; [None] when it is blocked or has returned. *)
Definition step_worker (fname : string) (i : nat) (s : state)
  : option state :=
  match gors s !! i with
  | Some (Receiving, mkInput (m :: rest) c) =>
      Some (set_gor i (Sending m, mkInput rest c) s)
  | Some (Receiving, mkInput [] true) =>
      Some (set_gor i (Finished, mkInput [] true) s)
  | Some (Receiving, mkInput [] false) => None
  | Some (Sending m, rest) =>
      if decide (length (merged s) < capacity)%nat then
        Some {| gors := <[i := (Marking, rest)]> (gors s);
                merged := merged s ++ [m];
                meters := meters s;
                received := received s |}
      else None
  | Some (Marking, rest) =>
      Some {| gors := <[i := (Receiving, rest)]> (gors s);
              merged := merged s;
              meters := Mark (meter_name fname) 1 (meters s);
              received := received s |}
  | Some (Finished, _) => None
  | None => None
  end.

Definition step_reader (s : state) : option state :=
  match merged s with
  | m :: rest =>
      Some {| gors := gors s; merged := rest; meters := meters s;
              received := received s ++ [m] |}
  | [] => None
  end.

Definition step (fname : string) (a : actor) (s : state) : option state :=
  match a with
  | Worker i => step_worker fname i s
  | Reader => step_reader s
  end.

(** Runs a schedule; [None] if it asks a blocked party to move. *)
Fixpoint exec (fname : string) (sched : list actor) (s : state)
  : option state :=
  match sched with
  | [] => Some s
  | a :: sched' =>
      match step fname a s with
      | Some s' => exec fname sched' s'
      | None => None
      end
  end.

(** Nobody can move any more. *)
Definition quiescent (fname : string) (s : state) : Prop :=
  ∀ a, step fname a s = None.

(** A goroutine that has left its loop, or waits on an input that is empty
    and stays open. *)
Definition at_rest (w : goroutine) : Prop :=
  w.1 = Finished
  ∨ (w.1 = Receiving ∧ events w.2 = [] ∧ closes w.2 = false).

(** The events of all inputs, and how many they are. *)
Definition all_events (ins : list input) : list Event :=
  concat (events <$> ins).

Definition total (ins : list input) : nat :=
  sum_list_with (λ i, length (events i)) ins.

(** The event a goroutine has received and not yet sent. *)
Definition held (p : pc) : list Event :=
  match p with
  | Sending m => [m]
  | _ => []
  end.

(** What a goroutine has still to put on [merged]. *)
Definition pending (w : goroutine) : list Event := held w.1 ++ events w.2.

(** Every event that is somewhere between the inputs and the reader. *)
Definition in_flight (s : state) : list Event :=
  received s ++ merged s ++ concat (pending <$> gors s).

(** Goroutines that have sent an event and not yet marked the meter. *)
Definition marks_due (s : state) : nat :=
  sum_list_with (λ w : goroutine,
                   match w.1 with Marking => 1 | _ => 0 end)%nat (gors s).

(** The number of steps a goroutine has left: four per event it has yet to
    receive, what remains of the iteration it is in, and the step that
    leaves the loop if its input gets closed. *)
Definition weight (w : goroutine) : nat :=
  let leave := if closes w.2 then 1%nat else 0%nat in
  (match w.1 with
   | Receiving => leave
   | Sending _ => 3 + leave
   | Marking => 1 + leave
   | Finished => 0
   end + 4 * length (events w.2))%nat.

Definition measure (s : state) : nat :=
  (sum_list_with weight (gors s) + length (merged s))%nat.

(** What holds of every state the goroutines can get to from
    [merge fname r ins]; [c0] is the count of the meter at the start and
    [all] the events of the inputs. *)
Definition invariant (fname : string) (c0 : Z) (all : list Event)
    (s : state) : Prop :=
  in_flight s ≡ₚ all
  ∧ count (meter_name fname) (meters s) + Z.of_nat (marks_due s)
    = c0 + Z.of_nat (length (received s) + length (merged s))
  ∧ Forall (λ w : goroutine, w.1 = Finished → events w.2 = []) (gors s).

End Merge.

(** ** The de-multiplexer of startinst *)

Module Demux.

(** Where one of the goroutines started in the loop over the encoded
    topics stands: at the head of [for event := range out], at the lookup
    [outs[event.Topic()]], or at the send [topicout <- event]. *)
Inductive pc : Set :=
| Idle
| Routing (e : Event)
| Sending (topic : string) (e : Event).

Record state : Type := mkState {
  (** the encoded topics the loop of [startinst] has yet to visit *)
  todo : list string;
  (** what the operator puts on [out], in the order it produces it, less
      what was received already *)
  out : list Event;
  (** the per-topic channels made so far, each with all that was sent on
      it, oldest first *)
  outs : gmap string (list Event);
  (** the writers started by [g.log.Write] *)
  writers : list string;
  workers : list pc;
  fatal : option Coord.Fatal
}.

(** The state when [startinst] reaches the loop; [order] is the order in
    which Go ranges over [g.log.EncodedTopics()]. *)
Definition start (order : list string) (produced : list Event) : state :=
  {| todo := order; out := produced; outs := ∅; writers := [];
     workers := []; fatal := None |}.

Inductive actor : Set :=
| Main
| Worker (i : nat).

(** One iteration of the loop over the encoded topics: make the channel,
    hand it to the log writer, start a goroutine. *)
Definition step_main (s : state) : option state :=
  match todo s with
  | topic :: rest =>
      Some {| todo := rest; out := out s;
              outs := <[topic := []]> (outs s);
              writers := writers s ++ [topic];
              workers := workers s ++ [Idle];
              fatal := fatal s |}
  | [] => None
  end.

Definition step_worker (fname : string) (i : nat) (s : state)
  : option state :=
  match workers s !! i with
  | Some Idle =>
      match out s with
      | e :: rest =>
          Some {| todo := todo s; out := rest; outs := outs s;
                  writers := writers s;
                  workers := <[i := Routing e]> (workers s);
                  fatal := fatal s |}
      | [] => None
      end
  | Some (Routing e) =>
      match outs s !! Topic e with
      | Some _ =>
          Some {| todo := todo s; out := out s; outs := outs s;
                  writers := writers s;
                  workers := <[i := Sending (Topic e) e]> (workers s);
                  fatal := fatal s |}
      | None =>
          Some {| todo := todo s; out := out s; outs := outs s;
                  writers := writers s;
                  workers := workers s;
                  fatal := Some (Coord.FatalNotWriter fname (Topic e)) |}
      end
  | Some (Sending topic e) =>
      Some {| todo := todo s; out := out s;
              outs := <[topic := default [] (outs s !! topic) ++ [e]]>
                        (outs s);
              writers := writers s;
              workers := <[i := Idle]> (workers s);
              fatal := fatal s |}
  | None => None
  end.

(** Nothing moves once [log.Fatalf] has ended the process. *)
Definition step (fname : string) (a : actor) (s : state) : option state :=
  match fatal s with
  | Some _ => None
  | None =>
      match a with
      | Main => step_main s
      | Worker i => step_worker fname i s
      end
  end.

Fixpoint exec (fname : string) (sched : list actor) (s : state)
  : option state :=
  match sched with
  | [] => Some s
  | a :: sched' =>
      match step fname a s with
      | Some s' => exec fname sched' s'
      | None => None
      end
  end.

(** The events of [l] bound for [topic], in the order of [l]. *)
Definition bound_for (topic : string) (l : list Event) : list Event :=
  filter (λ e, Topic e = topic) l.

(** What holds of every state reachable from [start order produced]:
    channels exist for encoded topics only, a channel carries events bound
    for its topic only, and a goroutine about to send holds an event bound
    for the channel it has looked up. *)
Definition routed (order : list string) (s : state) : Prop :=
  (∀ t, t ∈ todo s → t ∈ order)
  ∧ (∀ t l, outs s !! t = Some l →
            t ∈ order ∧ Forall (λ e, Topic e = t) l)
  ∧ Forall (λ p, match p with
                 | Sending t e => Topic e = t ∧ is_Some (outs s !! t)
                 | _ => True
                 end) (workers s).

(** The event a goroutine has received and not yet sent. *)
Definition in_hand (p : pc) : list Event :=
  match p with
  | Idle => []
  | Routing e => [e]
  | Sending _ e => [e]
  end.

(** What holds of every reachable state when a single goroutine is
    running: per topic, what was sent, what the goroutine holds and what
    is still to be received make up what the operator produced, in that
    order. *)
Definition in_order (produced : list Event) (s : state) : Prop :=
  (length (todo s) + length (workers s) ≤ 1)%nat
  ∧ (workers s = [] → outs s = ∅)
  ∧ ∀ t, default [] (outs s !! t)
         ++ bound_for t (concat (in_hand <$> workers s))
         ++ bound_for t (out s)
         = bound_for t produced.

End Demux.

(** ** Concrete values used to exercise the definitions *)

Module Sample.

Definition peer_name (i : Z) : string := "peer-0".

(** A log with decoders for two topics; [topicA] has three partitions and
    [topicB] has two. *)
Definition sample_log : Coord.ReadWriteLog :=
  {| Coord.DecodedTopics := {["topicA"; "topicB"]};
     Coord.EncodedTopics := {["topicB"]};
     Coord.Partitions := λ t,
       if decide (t = "topicA") then inr [0; 1; 2]
       else if decide (t = "topicB") then inr [0; 1]
       else inl "unknown topic" |}.

Definition connect (name : string) (k : Coord.KafkaConfig)
  : Coord.LogError + Coord.ReadWriteLog := inr sample_log.

Definition sample_config : Coord.KafkaConfig :=
  {| Coord.Brokers := ["localhost:10092"]; Coord.kcmdtopic := EmptyString;
     Coord.basename := EmptyString |}.

(** The grid [New("g", 3)] builds over [sample_log]. *)
Definition sample_grid : Coord.Grid :=
  match Coord.NewWithKafkaConfig peer_name connect "g" 3 sample_config with
  | inr g => g
  | inl _ =>
      Coord.mkGrid sample_log EmptyString EmptyString 0 0 ∅ ∅ 0 Coord.Open None 0
  end.

(** The same grid over a log in which [topicA] has two partitions. *)
Definition narrow_log : Coord.ReadWriteLog :=
  {| Coord.DecodedTopics := {["topicA"]};
     Coord.EncodedTopics := ∅;
     Coord.Partitions := λ t, inr [0; 1] |}.

Definition narrow_grid : Coord.Grid := Coord.set_log narrow_log sample_grid.

Definition sample_grid_with_x : Coord.Grid :=
  fst (Coord.Add sample_grid "x" 2 "f" ["topicB"]).

(** An assignment of both partitions of [topicB] to instance 0 of [x]. *)
Definition sample_instance : Coord.Instance :=
  {| Coord.Fname := "x"; Coord.Id := 0;
     Coord.TopicSlices := {["topicB" := [0; 1]]} |}.

Definition ev (topic key : string) (offset : Z) : Event :=
  {| Topic := topic; Part := 0; Offset := offset; Key := key;
     Message := EmptyString |}.

(** Three input streams of a hundred events each; the third is left open
    by its producer. *)
Definition hundred (topic : string) : list Event :=
  (λ k, ev topic "k" (Z.of_nat k)) <$> seq 0 100.

Definition three_streams : list Merge.input :=
  [ Merge.mkInput (hundred "a") true; Merge.mkInput (hundred "b") true;
    Merge.mkInput (hundred "c") false ].

(** Two events for [topicB], in the order the operator emits them. *)
Definition first_event : Event := ev "topicB" "k1" 0.
Definition second_event : Event := ev "topicB" "k2" 1.

(** One input of one event, and a registry in which the meter of [add1]
    has counted seven events already. *)
Definition one_event : list Merge.input :=
  [Merge.mkInput [ev "a" "k" 0] true].

Definition used_registry : gmap string Z := {["add1-msg-rate" := 7]}.

Definition sample_def : Actor.ActorDef :=
  {| Actor.id := EmptyString; Actor.Type_ := "worker"; Actor.Name := "n";
     Actor.namespace := "ns" |}.

End Sample.

(** * Properties *)

(** ** Actor definitions *)

Module ActorFacts.
Import Actor.

Lemma sprintf_dash_nonempty (a b : string) : sprintf_dash a b ≠ EmptyString.
Proof. unfold sprintf_dash. destruct a; simpl; discriminate. Qed.

Lemma ID_of_cached (a : ActorDef) : id a ≠ EmptyString → ID a = (id a, a).
Proof. intros H. unfold ID. destruct (decide (id a = EmptyString)); [done | reflexivity]. Qed.

Lemma ID_of_fresh (a : ActorDef) :
  id a = EmptyString →
  ID a = (sprintf_dash (namespace a) (Name a),
          mkActorDef (sprintf_dash (namespace a) (Name a)) (Type_ a) (Name a)
                     (namespace a)).
Proof. intros H. unfold ID. rewrite decide_True by exact H. reflexivity. Qed.

(** Once the identity is cached no sequence of field writes and further
    calls changes what [ID] returns. *)
Lemma run_cached (cs : list call) :
  ∀ a, id a ≠ EmptyString →
       Forall (λ r, r = id a) (fst (run cs a)) ∧ id (snd (run cs a)) = id a.
Proof.
  induction cs as [| c cs IH]; intros a Ha; simpl.
  - split; [constructor | reflexivity].
  - destruct c; simpl; try (apply (IH (mkActorDef _ _ _ _)); exact Ha).
    rewrite (ID_of_cached a Ha).
    destruct (IH a Ha) as [Hall Hid].
    destruct (run cs a) as [rs a'']; simpl in *.
    split; [constructor; [reflexivity | exact Hall] | exact Hid].
Qed.

(** C6: on a definition whose identity has not been computed yet, the first
    call of [ID] returns [namespace + "-" + Name] and stores it; whatever
    writes to [Type], [Name] and [namespace] and whatever further calls of
    [ID] follow, each of those calls returns that same string. *)
Theorem ID_computed_once_then_cached (a : ActorDef) (cs : list call) :
  id a = EmptyString →
  let r := fst (ID a) in
  let a1 := snd (ID a) in
  r = namespace a +:+ "-" +:+ Name a
  ∧ id a1 = r
  ∧ Type_ a1 = Type_ a ∧ Name a1 = Name a ∧ namespace a1 = namespace a
  ∧ Forall (λ later, later = r) (fst (run cs a1))
  ∧ fst (ID (snd (run cs a1))) = r.
Proof.
  intros Hfresh.
  rewrite (ID_of_fresh a Hfresh). simpl.
  set (a1 := mkActorDef _ _ _ _).
  assert (Ha1 : id a1 ≠ EmptyString) by apply sprintf_dash_nonempty.
  destruct (run_cached cs a1 Ha1) as [Hall Hid].
  repeat split; try reflexivity; try exact Hall.
  rewrite ID_of_cached by (rewrite Hid; exact Ha1).
  simpl. exact Hid.
Qed.

Lemma ID_computed_once_then_cached_witness :
  id Sample.sample_def = EmptyString
  ∧ Forall (λ later, later = "ns-n")
      (fst (run [SetName "m"; CallID; SetNamespace "other"; CallID]
                (snd (ID Sample.sample_def)))).
Proof.
  split; [reflexivity |].
  destruct (ID_computed_once_then_cached Sample.sample_def
              [SetName "m"; CallID; SetNamespace "other"; CallID] eq_refl)
    as (_ & _ & _ & _ & _ & Hall & _).
  exact Hall.
Defined.

(** C5: [ValidateActorDef] looks at [Type], then [Name], then [namespace]
    and reports the first field that the name check refuses; it returns nil
    exactly when the three fields pass.  An empty [Type], which the name
    grammar refuses, gives [ErrInvalidActorType] whatever the other fields
    hold. *)
Theorem ValidateActorDef_first_offender (valid : string → bool) :
  (∀ def, valid (Type_ def) = false →
          ValidateActorDef valid def = Some ErrInvalidActorType)
  ∧ (∀ def, valid (Type_ def) = true → valid (Name def) = false →
            ValidateActorDef valid def = Some ErrInvalidActorName)
  ∧ (∀ def, valid (Type_ def) = true → valid (Name def) = true →
            valid (namespace def) = false →
            ValidateActorDef valid def = Some ErrInvalidActorNamespace)
  ∧ (∀ def, ValidateActorDef valid def = None ↔
            valid (Type_ def) = true ∧ valid (Name def) = true
            ∧ valid (namespace def) = true)
  ∧ (valid EmptyString = false →
     ∀ i name ns,
       ValidateActorDef valid
         {| id := i; Type_ := EmptyString; Name := name; namespace := ns |}
       = Some ErrInvalidActorType).
Proof.
  unfold ValidateActorDef.
  repeat split.
  - intros def ->. reflexivity.
  - intros def -> ->. reflexivity.
  - intros def -> -> ->. reflexivity.
  - destruct (valid (Type_ def)); [reflexivity | discriminate].
  - destruct (valid (Type_ def)); [| discriminate].
    destruct (valid (Name def)); [reflexivity | discriminate].
  - destruct (valid (Type_ def)); [| discriminate].
    destruct (valid (Name def)); [| discriminate].
    destruct (valid (namespace def)); [reflexivity | discriminate].
  - intros (-> & -> & ->). reflexivity.
  - intros Hempty i name ns. simpl. rewrite Hempty. reflexivity.
Qed.

Lemma ValidateActorDef_first_offender_witness :
  ValidateActorDef isNameValid
    {| id := EmptyString; Type_ := EmptyString; Name := "n"; namespace := "ns" |}
  = Some ErrInvalidActorType
  ∧ ValidateActorDef isNameValid
      {| id := EmptyString; Type_ := "worker"; Name := "bad name"; namespace := EmptyString |}
    = Some ErrInvalidActorName
  ∧ ValidateActorDef isNameValid Sample.sample_def = None.
Proof.
  destruct (ValidateActorDef_first_offender isNameValid)
    as (_ & Hname & _ & Hnil & Hempty).
  split; [apply Hempty; reflexivity |].
  split; [apply Hname; reflexivity |].
  apply Hnil. repeat split; reflexivity.
Defined.

End ActorFacts.

(** ** The Grid coordinator *)

Module CoordFacts.
Import Coord.

Lemma wrap_int_small (x : Z) : is_int x → wrap_int x = x.
Proof.
  unfold is_int, int_min, int_max, wrap_int. intros H.
  rewrite Z.mod_small by lia. lia.
Qed.

(** Half of a positive [int] plus one never leaves the range of [int]. *)
Lemma majority_no_overflow (npeers : Z) :
  1 ≤ npeers → is_int npeers →
  int_add (int_div npeers 2) 1 = npeers `div` 2 + 1.
Proof.
  unfold is_int, int_min, int_max. intros Hpos Hint.
  unfold int_add, int_div.
  rewrite Z.quot_div_nonneg by lia.
  assert (0 ≤ npeers `div` 2 < 2 ^ 62).
  { split; [apply Z.div_pos; lia |].
    apply Z.div_lt_upper_bound; lia. }
  rewrite (wrap_int_small (npeers `div` 2))
    by (unfold is_int, int_min, int_max; lia).
  apply wrap_int_small. unfold is_int, int_min, int_max. lia.
Qed.

(** The constructor fails exactly when the log cannot be opened. *)
Lemma NewWithKafkaConfig_inr buildPeerName NewKafkaReadWriteLog
    (gridname : string) (npeers : Z) (kconfig : KafkaConfig)
    (rwlog : ReadWriteLog) :
  NewKafkaReadWriteLog (buildPeerName 0)
    {| Brokers := Brokers kconfig; kcmdtopic := gridname +:+ "-cmd";
       basename := gridname |} = inr rwlog →
  ∃ g, NewWithKafkaConfig buildPeerName NewKafkaReadWriteLog gridname npeers
         kconfig = inr g
       ∧ quorum g = uint32 (int_add (int_div npeers 2) 1)
       ∧ Coord.npeers g = npeers
       ∧ gridname +:+ "-cmd" ∈ EncodedTopics (log g)
       ∧ wg g = 1 ∧ exit g = Open ∧ ops g = ∅ ∧ parts g = ∅.
Proof.
  intros Hlog. unfold NewWithKafkaConfig. rewrite Hlog.
  eexists. split; [reflexivity |]. simpl.
  repeat split; try reflexivity. set_solver.
Qed.

(** C7, amended: for every grid name and every peer count [npeers ≥ 1]
    whose majority [⌊npeers/2⌋ + 1] fits in 32 bits, the constructor stores
    [quorum = ⌊npeers/2⌋ + 1]. *)
Theorem quorum_is_majority buildPeerName NewKafkaReadWriteLog
    (gridname : string) (npeers : Z) (kconfig : KafkaConfig)
    (rwlog : ReadWriteLog) :
  1 ≤ npeers →
  npeers `div` 2 + 1 < 2 ^ 32 →
  NewKafkaReadWriteLog (buildPeerName 0)
    {| Brokers := Brokers kconfig; kcmdtopic := gridname +:+ "-cmd";
       basename := gridname |} = inr rwlog →
  ∃ g, NewWithKafkaConfig buildPeerName NewKafkaReadWriteLog gridname npeers
         kconfig = inr g
       ∧ Coord.npeers g = npeers
       ∧ quorum g = npeers `div` 2 + 1.
Proof.
  intros Hpos Hfit Hlog.
  destruct (NewWithKafkaConfig_inr buildPeerName NewKafkaReadWriteLog
              gridname npeers kconfig rwlog Hlog)
    as (g & Hg & Hq & Hn & _).
  exists g. split; [exact Hg |]. split; [exact Hn |].
  rewrite Hq.
  assert (Hint : is_int npeers).
  { unfold is_int, int_min, int_max.
    assert (npeers < 2 * 2 ^ 32) by
      (pose proof (Z.mul_succ_div_gt npeers 2 ltac:(lia)); lia).
    lia. }
  rewrite (majority_no_overflow npeers Hpos Hint).
  unfold uint32. apply Z.mod_small.
  split; [| exact Hfit].
  assert (0 ≤ npeers `div` 2) by (apply Z.div_pos; lia). lia.
Qed.

Lemma quorum_is_majority_witness :
  ∃ g, NewWithKafkaConfig Sample.peer_name Sample.connect "g" 3
         Sample.sample_config = inr g
       ∧ Coord.npeers g = 3
       ∧ quorum g = 2.
Proof.
  apply (quorum_is_majority Sample.peer_name Sample.connect "g" 3
           Sample.sample_config Sample.sample_log);
    [lia | reflexivity | reflexivity].
Defined.

(** C7, as stated, fails: with [npeers = 2^33 - 2], which is at least 1 and
    a value of [int], the majority is [2^32] and the stored quorum is 0. *)
Lemma quorum_wraps_at_2_pow_33 :
  1 ≤ 8589934590 ∧ is_int 8589934590
  ∧ ∃ g, NewWithKafkaConfig Sample.peer_name Sample.connect "g" 8589934590
           Sample.sample_config = inr g
         ∧ quorum g = 0
         ∧ quorum g ≠ 8589934590 `div` 2 + 1.
Proof.
  split; [lia |]. split; [unfold is_int, int_min, int_max; lia |].
  eexists. split; [reflexivity |]. simpl.
  split; [reflexivity | discriminate].
Qed.

(** What one call of [Start] does. *)
Lemma Start_eq (g : Grid) :
  Start g =
  (set_registry (Some (default DefaultRegistry (registry g))) g,
   [ NewVoter 0; NewManager 0;
     LogRead (cmdtopic g) [0]; VoterStateMachine; LogWrite (cmdtopic g);
     LogRead (cmdtopic g) [0]; ManagerStateMachine; LogWrite (cmdtopic g) ],
   None).
Proof.
  unfold Start. destruct g as [? ? ? ? ? ? ? ? ? [r |] ?]; reflexivity.
Qed.

(** C8: [Start] returns nil, however often it is called: each of [k] calls
    in a row returns nil.  The grid changes in its metrics registry only,
    which becomes the default registry if none was set, and every call
    makes the same eight calls that wire the voter and the manager to the
    command topic. *)
Theorem Start_always_nil (g : Grid) (k : nat) :
  snd (Start g) = None
  ∧ snd (Start_times k g) = replicate k None
  ∧ fst (fst (Start_times k g))
    = match k with
      | O => g
      | S _ => set_registry (Some (default DefaultRegistry (registry g))) g
      end
  ∧ snd (fst (Start_times k g))
    = concat (replicate k
        [ NewVoter 0; NewManager 0;
          LogRead (cmdtopic g) [0]; VoterStateMachine; LogWrite (cmdtopic g);
          LogRead (cmdtopic g) [0]; ManagerStateMachine;
          LogWrite (cmdtopic g) ]).
Proof.
  split; [reflexivity |].
  revert g. induction k as [| k IH]; intros g; [repeat split |].
  cbn [Start_times]. rewrite Start_eq.
  set (g1 := set_registry _ g).
  destruct (IH g1) as (Hrs & Hgk & Hcs).
  destruct (Start_times k g1) as [[g2 cs'] rs]. cbn [fst snd] in *.
  subst rs g2 cs'.
  repeat split.
  destruct k; [reflexivity |].
  subst g1. destruct g; reflexivity.
Qed.

(** C9, amended: on a grid whose exit channel is open and whose wait-group
    counter is at least one, [Stop] returns, having closed the channel and
    taken one off the counter, so that [Wait] returns when the counter was
    one.  A second [Stop] panics at [close(g.exit)]: the grid is left as
    the first call left it, the wait group is not touched. *)
Theorem Stop_once_then_panic (g : Grid) :
  exit g = Open → 1 ≤ wg g →
  ∃ g1, Stop g = (g1, None)
        ∧ exit g1 = Closed
        ∧ wg g1 = wg g - 1
        ∧ ops g1 = ops g ∧ parts g1 = parts g
        ∧ (wg g = 1 → Wait g1 = true)
        ∧ Stop g1 = (g1, Some CloseOfClosedChannel).
Proof.
  intros Hopen Hwg. unfold Stop, wg_Done. rewrite Hopen.
  destruct (Z.ltb_spec (wg (set_exit Closed g) - 1) 0) as [Hneg | _];
    [simpl in Hneg; lia |].
  eexists. split; [reflexivity |]. simpl.
  repeat split. intros ->. reflexivity.
Qed.

Lemma Stop_once_then_panic_witness :
  exit Sample.sample_grid = Open ∧ wg Sample.sample_grid = 1
  ∧ ∃ g1, Stop Sample.sample_grid = (g1, None)
          ∧ Wait g1 = true
          ∧ Stop g1 = (g1, Some CloseOfClosedChannel).
Proof.
  split; [reflexivity |]. split; [reflexivity |].
  destruct (Stop_once_then_panic Sample.sample_grid eq_refl)
    as (g1 & H1 & _ & _ & _ & _ & Hwait & H2).
  - rewrite (eq_refl : wg Sample.sample_grid = 1). lia.
  - exists g1. split; [exact H1 |]. split; [apply Hwait; reflexivity |].
    exact H2.
Defined.

(** C9, as stated, fails: after two calls of [Stop] on a new grid the
    second call has panicked, and the wait-group counter is zero, not
    negative. *)
Lemma Stop_twice_counter_not_negative :
  snd (Stop Sample.sample_grid) = None
  ∧ snd (Stop (fst (Stop Sample.sample_grid))) = Some CloseOfClosedChannel
  ∧ wg (fst (Stop (fst (Stop Sample.sample_grid)))) = 0
  ∧ ¬ wg (fst (Stop (fst (Stop Sample.sample_grid)))) < 0.
Proof. repeat split. simpl. lia. Qed.

(** *** Add *)

Lemma topic_accepted_or_rejected (l : ReadWriteLog) (n : Z) (t : string) :
  topic_rejected l n t
  ∨ (t ∈ DecodedTopics l
     ∧ ∃ found, Partitions l t = inr found ∧ Z.of_nat (length found) ≤ n).
Proof.
  unfold topic_rejected.
  destruct (decide (t ∈ DecodedTopics l)) as [Hin | Hout]; [| by left; left].
  destruct (Partitions l t) as [err | found] eqn:HP.
  - left. right. left. by exists err.
  - destruct (Z.le_gt_cases (Z.of_nat (length found)) n).
    + right. split; [done |]. by exists found.
    + left. right. right. by exists found.
Qed.

Lemma topic_accepted_not_rejected (l : ReadWriteLog) (n : Z) (t : string)
    (found : list Z) :
  t ∈ DecodedTopics l → Partitions l t = inr found →
  Z.of_nat (length found) ≤ n → ¬ topic_rejected l n t.
Proof.
  intros Hin HP Hle [Hout | [[err He] | (found' & Hf & Hlt)]].
  - done.
  - congruence.
  - rewrite HP in Hf. injection Hf as <-. lia.
Qed.

(** The loop fails exactly when one of the listed topics is rejected. *)
Lemma Add_topics_error_iff (l : ReadWriteLog) (fname : string) (n : Z)
    (topics : list string) :
  ∀ ins ps,
    is_Some (snd (Add_topics l fname n topics ins ps))
    ↔ ∃ t, t ∈ topics ∧ topic_rejected l n t.
Proof.
  induction topics as [| topic rest IH]; intros ins ps; simpl.
  - split; [intros [? ?]; discriminate | intros (t & Hin & _)].
    by apply elem_of_nil in Hin.
  - destruct (decide (topic ∈ DecodedTopics l)) as [Hdec | Hdec]; simpl.
    2:{ split; [| by eauto]. intros _. exists topic.
        split; [by left | by left]. }
    destruct (Partitions l topic) as [err | found] eqn:HP; simpl.
    { split; [| by eauto]. intros _. exists topic.
      split; [by left |]. right. left. by exists err. }
    destruct (Z.gtb_spec (Z.of_nat (length found)) n) as [Hgt | Hle]; simpl.
    { split; [| by eauto]. intros _. exists topic.
      split; [by left |]. right. right. exists found. split; [done | lia]. }
    rewrite IH. split.
    + intros (t & Hin & Hrej). exists t. split; [by right | done].
    + intros (t & Hin & Hrej). apply elem_of_cons in Hin as [-> | Hin].
      * exfalso. by eapply topic_accepted_not_rejected.
      * by exists t.
Qed.

(** What a loop that ran to its end has written. *)
Lemma Add_topics_ok (l : ReadWriteLog) (fname : string) (n : Z)
    (topics : list string) :
  ∀ (ins ps : gmap string _) ins' ps',
    Add_topics l fname n topics ins ps = (ins', ps', None) →
    (∀ t, ins' !! t = if decide (t ∈ topics) then Some true else ins !! t)
    ∧ (∀ t, t ∈ topics →
            ∃ found, Partitions l t = inr found ∧ ps' !! t = Some found)
    ∧ (∀ t, t ∉ topics → ps' !! t = ps !! t).
Proof.
  induction topics as [| topic rest IH]; intros ins ps ins' ps' Hrun;
    simpl in Hrun.
  - injection Hrun as <- <-. repeat split.
    + intros t Hin. by apply elem_of_nil in Hin.
  - destruct (decide (topic ∈ DecodedTopics l)); [| discriminate].
    destruct (Partitions l topic) as [err | found] eqn:HP; [discriminate |].
    destruct (Z.of_nat (length found) >? n); [discriminate |].
    destruct (IH _ _ _ _ Hrun) as (Hins & Hin & Hout).
    split; [| split].
    + intros t. rewrite Hins.
      destruct (decide (t ∈ rest)) as [Hr | Hr].
      * rewrite decide_True; [done | by right].
      * destruct (decide (t = topic)) as [-> | Hne].
        -- rewrite decide_True by (by left). by rewrite lookup_insert_eq.
        -- rewrite decide_False by (rewrite elem_of_cons; tauto).
           by rewrite lookup_insert_ne.
    + intros t Ht.
      destruct (decide (t ∈ rest)) as [Hr | Hr]; [by apply Hin |].
      apply elem_of_cons in Ht as [-> | Ht]; [| done].
      exists found. split; [done |].
      rewrite (Hout topic Hr). by rewrite lookup_insert_eq.
    + intros t Ht. rewrite elem_of_cons in Ht.
      rewrite Hout by tauto. rewrite lookup_insert_ne; [done |].
      intros ->. tauto.
Qed.

(** Whatever the outcome, the loop touches the partition table at listed
    topics only, and what it stores there is what was discovered. *)
Lemma Add_topics_frame (l : ReadWriteLog) (fname : string) (n : Z)
    (topics : list string) :
  ∀ (ins ps : gmap string _) t,
    let ps' := snd (fst (Add_topics l fname n topics ins ps)) in
    ps' !! t = ps !! t
    ∨ (t ∈ topics
       ∧ ∃ found, Partitions l t = inr found ∧ ps' !! t = Some found).
Proof.
  induction topics as [| topic rest IH]; intros ins ps t; simpl.
  - by left.
  - destruct (decide (topic ∈ DecodedTopics l)); [| by left].
    destruct (Partitions l topic) as [err | found] eqn:HP; [by left |].
    assert (Hhere : ∀ q : gmap string (list Z),
               q !! t = <[topic := found]> ps !! t →
               q !! t = ps !! t
               ∨ (t ∈ topic :: rest
                  ∧ ∃ found0, Partitions l t = inr found0
                              ∧ q !! t = Some found0)).
    { intros q Hq. destruct (decide (t = topic)) as [-> | Hne].
      - right. split; [by left |]. exists found.
        by rewrite Hq, lookup_insert_eq.
      - left. by rewrite Hq, lookup_insert_ne. }
    destruct (Z.of_nat (length found) >? n); simpl; [by apply Hhere |].
    destruct (IH (<[topic := true]> ins) (<[topic := found]> ps) t)
      as [Hsame | (Hin & found0 & Hf & Hl)].
    + by apply Hhere.
    + right. split; [by right |]. by exists found0.
Qed.

(** A topic with too many partitions has had them stored before the
    check that refuses it. *)
Lemma Add_topics_too_many (l : ReadWriteLog) (fname : string) (n : Z)
    (topics : list string) :
  ∀ (ins ps : gmap string _) ins' ps' t fn len,
    Add_topics l fname n topics ins ps
    = (ins', ps', Some (TooManyPartitions t fn len)) →
    t ∈ topics
    ∧ ∃ found, Partitions l t = inr found ∧ ps' !! t = Some found
               ∧ len = Z.of_nat (length found) ∧ n < len.
Proof.
  induction topics as [| topic rest IH]; intros ins ps ins' ps' t fn len Hrun;
    simpl in Hrun; [discriminate |].
  destruct (decide (topic ∈ DecodedTopics l)); [| discriminate].
  destruct (Partitions l topic) as [err | found] eqn:HP; [discriminate |].
  destruct (Z.gtb_spec (Z.of_nat (length found)) n) as [Hgt | Hle].
  - injection Hrun as <- <- <- <- <-. split; [by left |].
    exists found. rewrite lookup_insert_eq. repeat split; [done | lia].
  - destruct (IH _ _ _ _ _ _ _ Hrun) as (Hin & Hrest).
    split; [by right | done].
Qed.

Lemma Add_registered (g : Grid) (fname : string) (n : Z) (f : OpFunc)
    (topics : list string) :
  is_Some (ops g !! fname) →
  Add g fname n f topics = (g, Some (AlreadyAdded fname)).
Proof. intros [o Ho]. unfold Add. by rewrite Ho. Qed.

Lemma Add_fresh (g : Grid) (fname : string) (n : Z) (f : OpFunc)
    (topics : list string) :
  ops g !! fname = None →
  Add g fname n f topics =
  let r := Add_topics (log g) fname n topics ∅ (parts g) in
  match snd r with
  | Some e => (set_parts (snd (fst r)) g, Some e)
  | None =>
      (set_ops (<[fname := {| n := n; f := f; inputs := fst (fst r) |}]>
                  (ops g))
               (set_parts (snd (fst r)) g),
       None)
  end.
Proof.
  intros Ho. unfold Add. rewrite Ho.
  destruct (Add_topics _ _ _ _ _ _) as [[ins ps] [e |]]; reflexivity.
Qed.

(** [Add] fails exactly when the name is taken or a topic is rejected. *)
Lemma Add_is_Some_iff (g : Grid) (fname : string) (n : Z) (f : OpFunc)
    (topics : list string) :
  is_Some (snd (Add g fname n f topics))
  ↔ is_Some (ops g !! fname)
    ∨ ∃ t, t ∈ topics ∧ topic_rejected (log g) n t.
Proof.
  destruct (ops g !! fname) as [o |] eqn:Ho.
  - rewrite Add_registered by (by rewrite Ho). simpl.
    split; [intros _; left |]; eauto.
  - rewrite Add_fresh by done. cbn zeta.
    rewrite <- (Add_topics_error_iff (log g) fname n topics ∅ (parts g)).
    destruct (snd (Add_topics _ _ _ _ _ _)) as [e |]; simpl.
    + split; [intros _; right |]; eauto.
    + split; [intros [? ?]; discriminate |].
      intros [[? ?] | [? ?]]; discriminate.
Qed.

(** C1: [Add] returns an error if and only if the name is in the operator
    registry already or one of the listed topics has no decoder, cannot
    have its partitions discovered, or has more partitions than [n].  When
    it returns nil the registry holds the operator, with the listed topics
    as its inputs, and the partition table holds the discovered partitions
    of every listed topic.  [Add("x", 2, f, "topicA")] fails when [topicA]
    has three partitions, and succeeds on a grid without [x] and with a
    decoder for [topicA] when it has at most two. *)
Theorem Add_error_iff :
  (∀ g fname n f topics,
     is_Some (snd (Add g fname n f topics))
     ↔ is_Some (ops g !! fname)
       ∨ ∃ t, t ∈ topics ∧ topic_rejected (log g) n t)
  ∧ (∀ g fname n f topics,
       snd (Add g fname n f topics) = None →
       let g' := fst (Add g fname n f topics) in
       (∃ o, ops g' = <[fname := o]> (ops g)
             ∧ Coord.n o = n ∧ Coord.f o = f
             ∧ ∀ t, inputs o !! t
                    = if decide (t ∈ topics) then Some true else None)
       ∧ (∀ t, t ∈ topics →
               ∃ found, Partitions (log g) t = inr found
                        ∧ parts g' !! t = Some found)
       ∧ (∀ t, t ∉ topics → parts g' !! t = parts g !! t))
  ∧ (∀ g f found,
       Partitions (log g) "topicA" = inr found →
       (length found = 3%nat → is_Some (snd (Add g "x" 2 f ["topicA"])))
       ∧ ((length found ≤ 2)%nat → ops g !! "x" = None →
          "topicA" ∈ DecodedTopics (log g) →
          snd (Add g "x" 2 f ["topicA"]) = None)).
Proof.
  pose proof Add_is_Some_iff as Hiff.
  split; [exact Hiff |]. split.
  - intros g fname n f topics Hnil.
    destruct (ops g !! fname) as [o |] eqn:Ho.
    { rewrite Add_registered in Hnil by (by rewrite Ho). discriminate. }
    rewrite Add_fresh in Hnil |- * by done. cbn zeta in *.
    destruct (Add_topics (log g) fname n topics ∅ (parts g))
      as [[ins ps] [e |]] eqn:Hrun; simpl in *; [discriminate |].
    destruct (Add_topics_ok _ _ _ _ _ _ _ _ Hrun) as (Hins & Hin & Hout).
    split; [| split; [exact Hin | exact Hout]].
    eexists. split; [reflexivity |]. simpl. repeat split.
    intros t. rewrite Hins. by rewrite lookup_empty.
  - intros g f found HP. split.
    + intros Hlen. apply Hiff. right. exists "topicA".
      split; [by left |]. right. right. exists found. split; [done | lia].
    + intros Hlen Hx Hdec.
      destruct (snd (Add g "x" 2 f ["topicA"])) as [e |] eqn:He; [| done].
      exfalso.
      assert (Hsome : is_Some (snd (Add g "x" 2 f ["topicA"])))
        by (by rewrite He).
      apply Hiff in Hsome as [[o Ho] | (t & Hin & Hrej)]; [congruence |].
      apply list_elem_of_singleton in Hin as ->.
      revert Hrej. eapply topic_accepted_not_rejected; [done.. | lia].
Qed.

Lemma Add_error_iff_witness :
  is_Some (snd (Add Sample.sample_grid "x" 2 "f" ["topicA"]))
  ∧ snd (Add Sample.narrow_grid "x" 2 "f" ["topicA"]) = None
  ∧ ∃ found, Partitions (log Sample.narrow_grid) "topicA" = inr found
             ∧ parts (fst (Add Sample.narrow_grid "x" 2 "f" ["topicA"]))
                 !! "topicA" = Some found.
Proof.
  destruct Add_error_iff as (_ & Hok & Hex).
  assert (Hnil : snd (Add Sample.narrow_grid "x" 2 "f" ["topicA"]) = None).
  { apply (Hex Sample.narrow_grid "f" [0; 1]);
      [reflexivity | simpl; lia | reflexivity |].
    simpl. by apply elem_of_singleton. }
  split; [| split; [exact Hnil |]].
  - apply (Hex Sample.sample_grid "f" [0; 1; 2]); reflexivity.
  - apply (Hok Sample.narrow_grid "x" 2 "f" ["topicA"] Hnil). by left.
Defined.

(** C10, amended: whenever [Add] returns an error the operator registry is
    the one it was, and nothing but the partition table has changed.  If
    the name was registered before, the error is the one for a name already
    added and every later [Add] with that name fails too; if it was not, it
    is not registered afterwards and a later [Add] with the same name
    succeeds as soon as its topics pass the checks.
    The partition table differs from the old one at listed topics only,
    where it holds what was discovered; a topic refused for having too many
    partitions has had them stored.  Such a failed [Add] that has changed
    the partition table exists. *)
Theorem Add_error_frame :
  (∀ g fname n f topics g' e,
     Add g fname n f topics = (g', Some e) →
     ops g' = ops g
     ∧ g' = set_parts (parts g') g
     ∧ (is_Some (ops g !! fname) →
        e = AlreadyAdded fname ∧ g' = g
        ∧ ∀ n' f' topics', is_Some (snd (Add g' fname n' f' topics')))
     ∧ (ops g !! fname = None →
        ops g' !! fname = None
        ∧ ∀ n' f' topics',
            (∀ t, t ∈ topics' → ¬ topic_rejected (log g') n' t) →
            snd (Add g' fname n' f' topics') = None)
     ∧ (∀ t, parts g' !! t = parts g !! t
             ∨ (t ∈ topics
                ∧ ∃ found, Partitions (log g) t = inr found
                           ∧ parts g' !! t = Some found))
     ∧ (∀ t fn len,
          e = TooManyPartitions t fn len →
          t ∈ topics
          ∧ ∃ found, Partitions (log g) t = inr found
                     ∧ parts g' !! t = Some found))
  ∧ (∃ g fname n f topics,
       is_Some (snd (Add g fname n f topics))
       ∧ ops (fst (Add g fname n f topics)) = ops g
       ∧ parts (fst (Add g fname n f topics)) ≠ parts g).
Proof.
  split.
  - intros g fname n f topics g' e HAdd.
    destruct (ops g !! fname) as [o |] eqn:Ho.
    { assert (Hreg : is_Some (ops g !! fname)) by (by rewrite Ho).
      rewrite Add_registered in HAdd by done.
      injection HAdd as <- <-.
      repeat split; try done; try (by destruct g); try (by left).
      intros n' f' topics'. rewrite Add_registered by done. by eexists. }
    rewrite Add_fresh in HAdd by done. cbn zeta in HAdd.
    pose proof (Add_topics_frame (log g) fname n topics ∅ (parts g))
      as Hframe.
    destruct (Add_topics (log g) fname n topics ∅ (parts g))
      as [[ins ps] [e' |]] eqn:Hrun; simpl in *; [| discriminate].
    injection HAdd as <- <-. simpl.
    split; [done |]. split; [done |].
    split; [intros [? ?]; discriminate |].
    split; [| split; [exact Hframe |]].
    + intros _. split; [done |].
      intros n' f' topics' Hpass.
      destruct (snd (Add (set_parts ps g) fname n' f' topics'))
        as [e2 |] eqn:He2; [| done].
      exfalso.
      assert (Hsome : is_Some (snd (Add (set_parts ps g) fname n' f'
                                        topics'))) by (by rewrite He2).
      apply Add_is_Some_iff in Hsome
        as [[o Hsome] | (t & Hin & Hrej)]; simpl in *; [congruence |].
      by apply (Hpass t).
    + intros t fn len ->.
      destruct (Add_topics_too_many _ _ _ _ _ _ _ _ _ _ _ Hrun)
        as (Hin & found & HP & Hl & _).
      split; [done |]. by exists found.
  - exists Sample.sample_grid, "x", 2, "f", ["topicA"].
    split; [by eexists |]. split; [reflexivity |].
    intros Heq.
    assert (H : parts (fst (Add Sample.sample_grid "x" 2 "f" ["topicA"]))
                  !! "topicA" = parts Sample.sample_grid !! "topicA")
      by (by rewrite Heq).
    vm_compute in H. discriminate.
Qed.

Lemma Add_error_frame_witness :
  snd (Add Sample.sample_grid "x" 2 "f" ["topicB"; "topicA"])
  = Some (TooManyPartitions "topicA" "x" 3)
  ∧ ops (fst (Add Sample.sample_grid "x" 2 "f" ["topicB"; "topicA"]))
    = ops Sample.sample_grid
  ∧ snd (Add (fst (Add Sample.sample_grid "x" 2 "f" ["topicB"; "topicA"]))
             "x" 2 "f" ["topicB"]) = None.
Proof.
  destruct Add_error_frame as [Hframe _].
  destruct (Hframe Sample.sample_grid "x" 2 "f" ["topicB"; "topicA"]
              (fst (Add Sample.sample_grid "x" 2 "f" ["topicB"; "topicA"]))
              (TooManyPartitions "topicA" "x" 3) eq_refl)
    as (Hops & _ & _ & Hlater & _).
  split; [reflexivity |]. split; [exact Hops |].
  apply (proj2 (Hlater eq_refl)).
  intros t Ht. apply list_elem_of_singleton in Ht as ->.
  apply (topic_accepted_not_rejected _ _ _ [0; 1]);
    [| reflexivity | simpl; lia].
  simpl. set_solver.
Defined.

(** C10, as stated, fails: on a grid that has [x], [Add("x", ...)] returns
    an error, and [x] is registered after it; no later [Add] with that name
    succeeds. *)
Lemma Add_duplicate_stays_registered :
  snd (Add Sample.sample_grid_with_x "x" 2 "f" [])
  = Some (AlreadyAdded "x")
  ∧ is_Some (ops (fst (Add Sample.sample_grid_with_x "x" 2 "f" [])) !! "x")
  ∧ ∀ n' f' topics',
      is_Some (snd (Add (fst (Add Sample.sample_grid_with_x "x" 2 "f" []))
                        "x" n' f' topics')).
Proof.
  assert (Hx : is_Some (ops Sample.sample_grid_with_x !! "x"))
    by (by eexists).
  rewrite (Add_registered _ "x" 2 "f" [] Hx). simpl.
  split; [done |]. split; [done |].
  intros n' f' topics'. rewrite (Add_registered _ "x" n' f' topics' Hx).
  by eexists.
Qed.

(** *** startinst *)

Lemma open_readers_declared (o : op) (fname : string)
    (slices : list (string * list Z)) :
  ∀ ins,
    (∀ t ps, (t, ps) ∈ slices → inputs o !! t = Some true) →
    open_readers o fname slices ins
    = inr (ins ++ ((λ tp, LogRead tp.1 tp.2) <$> slices)).
Proof.
  induction slices as [| [t ps] rest IH]; intros ins Hall; simpl.
  - by rewrite app_nil_r.
  - rewrite (Hall t ps) by (by left). simpl.
    rewrite IH by (intros t' ps' Hin; apply (Hall t' ps'); by right).
    by rewrite <- app_assoc.
Qed.

Lemma open_readers_undeclared (o : op) (fname : string)
    (slices : list (string * list Z)) :
  ∀ ins,
    (∃ t ps, (t, ps) ∈ slices ∧ inputs o !! t ≠ Some true) →
    ∃ t ps, (t, ps) ∈ slices ∧ inputs o !! t ≠ Some true
            ∧ open_readers o fname slices ins = inl (FatalNotReader fname t).
Proof.
  induction slices as [| [t ps] rest IH]; intros ins (t0 & ps0 & Hin & Hno).
  - by apply elem_of_nil in Hin.
  - simpl. destruct (inputs o !! t) as [[|] |] eqn:Hdecl; simpl.
    + apply elem_of_cons in Hin as [Heq | Hin].
      { injection Heq as -> ->. congruence. }
      destruct (IH (ins ++ [LogRead t ps])) as (t1 & ps1 & Hin1 & Hno1 & Hrun).
      { by exists t0, ps0. }
      exists t1, ps1. split; [by right | done].
    + exists t, ps. split; [by left |]. split; [congruence | done].
    + exists t, ps. split; [by left |]. split; [congruence | done].
Qed.

(** C4: [startinst] has no error result.  When the operator named by the
    instance is registered and each assigned topic is one of its declared
    inputs, neither [log.Fatalf] at its start is reached and one reader per
    assigned topic is opened; this is the only case in which it gets past
    them.  When the operator is not registered, or some assigned topic is
    not among its inputs, the process is ended by the matching
    [log.Fatalf]. *)
Theorem startinst_fatal_unless_declared (g : Grid) (inst : Instance)
    (order : list (string * list Z)) :
  order ≡ₚ map_to_list (TopicSlices inst) →
  let declared :=
    ∃ o, ops g !! Fname inst = Some o
         ∧ ∀ t, t ∈ dom (TopicSlices inst) → inputs o !! t = Some true in
  (declared →
   startinst_inputs g inst order
   = inr ((λ tp, LogRead tp.1 tp.2) <$> order))
  ∧ (ops g !! Fname inst = None →
     startinst_inputs g inst order = inl (FatalDoesNotExist (Fname inst)))
  ∧ (∀ o, ops g !! Fname inst = Some o →
          (∃ t, t ∈ dom (TopicSlices inst) ∧ inputs o !! t ≠ Some true) →
          ∃ t, t ∈ dom (TopicSlices inst) ∧ inputs o !! t ≠ Some true
               ∧ startinst_inputs g inst order
                 = inl (FatalNotReader (Fname inst) t))
  ∧ ((∃ ins, startinst_inputs g inst order = inr ins) ↔ declared).
Proof.
  intros Hperm declared.
  assert (Hmem : ∀ t ps, (t, ps) ∈ order ↔ TopicSlices inst !! t = Some ps).
  { intros t ps. rewrite Hperm. apply elem_of_map_to_list. }
  assert (Hdom : ∀ t, t ∈ dom (TopicSlices inst) ↔ ∃ ps, (t, ps) ∈ order).
  { intros t. rewrite elem_of_dom. unfold is_Some.
    split; intros [ps Hps]; exists ps; by apply Hmem. }
  assert (Hgo : declared →
                startinst_inputs g inst order
                = inr ((λ tp, LogRead tp.1 tp.2) <$> order)).
  { intros (o & Ho & Hall). unfold startinst_inputs. rewrite Ho.
    rewrite open_readers_declared; [done |].
    intros t ps Hin. apply Hall, Hdom. by exists ps. }
  assert (Hbad : ∀ o, ops g !! Fname inst = Some o →
          (∃ t, t ∈ dom (TopicSlices inst) ∧ inputs o !! t ≠ Some true) →
          ∃ t, t ∈ dom (TopicSlices inst) ∧ inputs o !! t ≠ Some true
               ∧ startinst_inputs g inst order
                 = inl (FatalNotReader (Fname inst) t)).
  { intros o Ho (t & Ht & Hno). apply Hdom in Ht as [ps Hin].
    destruct (open_readers_undeclared o (Fname inst) order [])
      as (t1 & ps1 & Hin1 & Hno1 & Hrun); [by exists t, ps |].
    exists t1. split; [apply Hdom; by exists ps1 |]. split; [done |].
    unfold startinst_inputs. by rewrite Ho. }
  split; [exact Hgo |]. split; [| split; [exact Hbad |]].
  - intros Hnone. unfold startinst_inputs. by rewrite Hnone.
  - split; [| intros Hd; eexists; by apply Hgo].
    intros [ins Hrun].
    destruct (ops g !! Fname inst) as [o |] eqn:Ho.
    2:{ unfold startinst_inputs in Hrun. rewrite Ho in Hrun. discriminate. }
    exists o. split; [done |]. intros t Ht.
    destruct (decide (inputs o !! t = Some true)) as [Hyes | Hno]; [done |].
    destruct (Hbad o) as (t1 & _ & _ & Hfatal); [done | by exists t |].
    rewrite Hfatal in Hrun. discriminate.
Qed.

Lemma startinst_fatal_unless_declared_witness :
  startinst_inputs Sample.sample_grid_with_x Sample.sample_instance
                   [("topicB", [0; 1])]
  = inr [LogRead "topicB" [0; 1]]
  ∧ startinst_inputs Sample.sample_grid Sample.sample_instance
                     [("topicB", [0; 1])]
    = inl (FatalDoesNotExist "x").
Proof.
  assert (Hperm : [("topicB", [0; 1])]
                  ≡ₚ map_to_list (TopicSlices Sample.sample_instance)).
  { unfold Sample.sample_instance. simpl. by rewrite map_to_list_singleton. }
  split.
  - destruct (startinst_fatal_unless_declared Sample.sample_grid_with_x
                Sample.sample_instance _ Hperm) as (Hgo & _).
    apply Hgo. eexists. split; [reflexivity |].
    intros t Ht. simpl in Ht. apply elem_of_dom in Ht as [ps Hps].
    apply lookup_singleton_Some in Hps as [<- _]. reflexivity.
  - destruct (startinst_fatal_unless_declared Sample.sample_grid
                Sample.sample_instance _ Hperm) as (_ & Hnone & _).
    apply Hnone. reflexivity.
Defined.

End CoordFacts.

(** ** merge *)

Module MergeFacts.
Import Merge.

(** Replacing the element at an index, seen as a split of the list. *)
Lemma lookup_split {A} (l : list A) (i : nat) (x : A) :
  l !! i = Some x →
  ∃ l1 l2, l = l1 ++ x :: l2 ∧ ∀ y, <[i := y]> l = l1 ++ y :: l2.
Proof.
  intros Hi. exists (take i l), (drop (S i) l). split.
  - symmetry. by apply take_drop_middle.
  - intros y. apply insert_take_drop. by eapply lookup_lt_Some.
Qed.

Lemma count_Mark (name : string) (k : Z) (r : gmap string Z) :
  count name (Mark name k r) = count name r + k.
Proof. unfold count, Mark. by rewrite lookup_insert_eq. Qed.

Lemma count_GetOrRegisterMeter (name : string) (r : gmap string Z) :
  count name (GetOrRegisterMeter name r) = count name r.
Proof.
  unfold count, GetOrRegisterMeter.
  destruct (r !! name) eqn:Hr; [by rewrite Hr |].
  by rewrite lookup_insert_eq.
Qed.

Lemma pending_fresh (ins : list input) :
  concat (pending <$> ((λ i, (Receiving, i)) <$> ins)) = all_events ins.
Proof.
  unfold all_events. induction ins as [| l ins IH]; [done |].
  cbn. by f_equal.
Qed.

Lemma marks_due_fresh (ins : list input) :
  sum_list_with (λ w : goroutine,
                   match w.1 with Marking => 1 | _ => 0 end)%nat
    ((λ i, (Receiving, i)) <$> ins) = 0%nat.
Proof. induction ins as [| l ins IH]; [done |]. cbn. exact IH. Qed.

Lemma weight_fresh (ins : list input) :
  (sum_list_with weight ((λ i, (Receiving, i)) <$> ins)
   ≤ 4 * total ins + length ins)%nat.
Proof.
  unfold total. induction ins as [| [l c] ins IH]; [done |].
  rewrite fmap_cons. cbn [sum_list_with length].
  unfold weight at 1. cbn [fst snd events closes].
  destruct c; lia.
Qed.

Lemma length_all_events (ins : list input) :
  length (all_events ins) = total ins.
Proof.
  unfold all_events, total. induction ins as [| l ins IH]; [done |].
  rewrite fmap_cons. cbn [concat sum_list_with].
  by rewrite length_app, IH.
Qed.

Lemma invariant_merge (fname : string) (r : gmap string Z)
    (ins : list input) :
  invariant fname (count (meter_name fname) r) (all_events ins)
            (merge fname r ins).
Proof.
  unfold invariant, in_flight, marks_due, merge. simpl.
  rewrite pending_fresh, marks_due_fresh, count_GetOrRegisterMeter.
  split; [done |]. split; [lia |].
  apply Forall_fmap, Forall_forall. intros l _. simpl. discriminate.
Qed.

Lemma measure_merge (fname : string) (r : gmap string Z)
    (ins : list input) :
  (measure (merge fname r ins) ≤ 4 * total ins + length ins)%nat.
Proof.
  unfold measure, merge. simpl. pose proof (weight_fresh ins). lia.
Qed.

(** Every step keeps the invariant. *)
Lemma step_invariant (fname : string) (c0 : Z) (all : list Event)
    (a : actor) (s s' : state) :
  invariant fname c0 all s → step fname a s = Some s' →
  invariant fname c0 all s'.
Proof.
  unfold invariant, in_flight, marks_due.
  intros (Hall & Hcount & Hfin) Hstep.
  destruct a as [i |]; simpl in Hstep.
  - unfold step_worker in Hstep.
    destruct (gors s !! i) as [[p [rest c]] |] eqn:Hi; [| discriminate].
    destruct (lookup_split _ _ _ Hi) as (l1 & l2 & Hl & Hins).
    rewrite Hl in Hall, Hcount, Hfin.
    rewrite fmap_app, concat_app, fmap_cons in Hall. simpl in Hall.
    rewrite sum_list_with_app in Hcount. simpl in Hcount.
    apply Forall_app in Hfin as [Hf1 Hf2].
    apply Forall_cons in Hf2 as [_ Hf2].
    destruct p as [| m | |].
    + destruct rest as [| m rest]; [destruct c; [| discriminate] |];
        injection Hstep as <-; simpl;
        rewrite Hins, fmap_app, concat_app, fmap_cons, sum_list_with_app;
        simpl.
      * split; [done |]. split; [done |].
        apply Forall_app. split; [done |]. by apply Forall_cons.
      * split; [done |]. split; [done |].
        apply Forall_app. split; [done |]. by apply Forall_cons.
    + destruct (decide (length (merged s) < capacity)%nat);
        [| discriminate].
      injection Hstep as <-. simpl.
      rewrite Hins, fmap_app, concat_app, fmap_cons, sum_list_with_app.
      simpl. split; [| split].
      * rewrite <- Hall. unfold pending. simpl. solve_Permutation.
      * rewrite length_app. simpl. lia.
      * apply Forall_app. split; [done |]. by apply Forall_cons.
    + injection Hstep as <-. simpl.
      rewrite Hins, fmap_app, concat_app, fmap_cons, sum_list_with_app.
      simpl. split; [done |]. split.
      * rewrite count_Mark. lia.
      * apply Forall_app. split; [done |]. by apply Forall_cons.
    + discriminate.
  - unfold step_reader in Hstep.
    destruct (merged s) as [| m rest] eqn:Hm; [discriminate |].
    injection Hstep as <-. simpl. split; [| split; [| done]].
    + rewrite <- Hall. solve_Permutation.
    + rewrite length_app. simpl in *. lia.
Qed.

(** Every step uses up one unit of the measure. *)
Lemma step_measure (fname : string) (a : actor) (s s' : state) :
  step fname a s = Some s' → measure s = S (measure s').
Proof.
  unfold measure. intros Hstep.
  destruct a as [i |]; simpl in Hstep.
  - unfold step_worker in Hstep.
    destruct (gors s !! i) as [[p [rest c]] |] eqn:Hi; [| discriminate].
    destruct (lookup_split _ _ _ Hi) as (l1 & l2 & Hl & Hins).
    rewrite Hl, sum_list_with_app. simpl.
    destruct p as [| m | |].
    + destruct rest as [| m rest]; [destruct c; [| discriminate] |];
        injection Hstep as <-; simpl;
        rewrite Hins, sum_list_with_app; unfold weight; simpl; lia.
    + destruct (decide (length (merged s) < capacity)%nat);
        [| discriminate].
      injection Hstep as <-. simpl.
      rewrite Hins, sum_list_with_app, length_app. unfold weight. simpl. lia.
    + injection Hstep as <-. simpl.
      rewrite Hins, sum_list_with_app. unfold weight. simpl. lia.
    + discriminate.
  - unfold step_reader in Hstep.
    destruct (merged s) as [| m rest] eqn:Hm; [discriminate |].
    injection Hstep as <-. simpl. lia.
Qed.

Lemma exec_invariant (fname : string) (c0 : Z) (all : list Event)
    (sched : list actor) :
  ∀ s s', invariant fname c0 all s → exec fname sched s = Some s' →
          invariant fname c0 all s'.
Proof.
  induction sched as [| a sched IH]; intros s s' Hinv Hrun; simpl in Hrun.
  - by injection Hrun as <-.
  - destruct (step fname a s) as [s1 |] eqn:Hstep; [| discriminate].
    eapply IH; [| done]. by eapply step_invariant.
Qed.

Lemma exec_measure (fname : string) (sched : list actor) :
  ∀ s s', exec fname sched s = Some s' →
          measure s = (length sched + measure s')%nat.
Proof.
  induction sched as [| a sched IH]; intros s s' Hrun; simpl in Hrun.
  - by injection Hrun as <-.
  - destruct (step fname a s) as [s1 |] eqn:Hstep; [| discriminate].
    rewrite (step_measure _ _ _ _ Hstep), (IH _ _ Hrun). simpl. lia.
Qed.

(** A goroutine is at rest, or it moves as soon as the buffer has room. *)
Lemma at_rest_or_step (fname : string) (s : state) (i : nat)
    (w : goroutine) :
  gors s !! i = Some w → merged s = [] →
  at_rest w ∨ ∃ s', step_worker fname i s = Some s'.
Proof.
  intros Hi Hm. unfold step_worker, at_rest. rewrite Hi, Hm.
  destruct w as [[| m | |] [[| m' rest] [|]]]; simpl; eauto.
Qed.

(** Nobody can move exactly when the buffer is empty and every goroutine
    is at rest. *)
Lemma quiescent_iff (fname : string) (s : state) :
  quiescent fname s ↔ merged s = [] ∧ Forall at_rest (gors s).
Proof.
  split.
  - intros Hq.
    assert (Hm : merged s = []).
    { specialize (Hq Reader). unfold step, step_reader in Hq.
      by destruct (merged s). }
    split; [done |]. apply Forall_lookup. intros i w Hi.
    destruct (at_rest_or_step fname s i w Hi Hm) as [Hrest | [s' Hs']];
      [done |].
    specialize (Hq (Worker i)). simpl in Hq. congruence.
  - intros [Hm Hrest] [i |]; unfold step.
    + unfold step_worker.
      destruct (gors s !! i) as [[p [rest c]] |] eqn:Hi; [| done].
      rewrite Forall_lookup in Hrest.
      destruct (Hrest i _ Hi) as [Hp | (Hp & Hev & Hc)]; simpl in *.
      * by subst p.
      * by subst p rest c.
    + unfold step_reader. by rewrite Hm.
Qed.

(** As long as somebody is not at rest, somebody can move. *)
Lemma quiescent_or_step (fname : string) (s : state) :
  quiescent fname s ∨ ∃ a s', step fname a s = Some s'.
Proof.
  destruct (merged s) as [| m ms] eqn:Hm.
  2:{ right. exists Reader. unfold step, step_reader. rewrite Hm. eauto. }
  assert (Hall : ∀ l k,
            gors s = k ++ l →
            Forall at_rest l
            ∨ ∃ i s', step_worker fname i s = Some s').
  { induction l as [| w l IH]; intros k Hk; [by left |].
    destruct (at_rest_or_step fname s (length k) w) as [Hw | [s' Hs']];
      [by rewrite Hk, list_lookup_middle | done | | right; eauto].
    destruct (IH (k ++ [w])) as [Hl | Hmove];
      [by rewrite <- app_assoc | left; by constructor | by right]. }
  destruct (Hall (gors s) []) as [Hrest | (i & s' & Hs')]; [done | |].
  - left. by apply quiescent_iff.
  - right. by exists (Worker i), s'.
Qed.

(** From every state the goroutines and the reader can run until all are
    at rest. *)
Lemma reach_quiescent (fname : string) (k : nat) :
  ∀ s, measure s = k →
       ∃ sched s', exec fname sched s = Some s' ∧ quiescent fname s'.
Proof.
  induction k as [| k IH]; intros s Hk;
    destruct (quiescent_or_step fname s) as [Hq | (a & s1 & Hstep)];
    try (by exists [], s).
  - apply step_measure in Hstep. lia.
  - destruct (IH s1) as (sched & s' & Hrun & Hq).
    { apply step_measure in Hstep. lia. }
    exists (a :: sched), s'. simpl. by rewrite Hstep.
Qed.

(** C2, amended: started on any inputs, the goroutines of [merge] and the
    reader of the merged stream come to rest, after no more than four
    steps per event and one per input, whatever the interleaving.  At rest
    the reader has received the events of all inputs, each as often as the
    inputs hold it, so as many as the inputs hold together; the meter
    [fname + "-msg-rate"] has been marked once for each of them, so its
    count has grown by that number, and it counts just that many when it
    was new or at zero at the call of [merge]. *)
Theorem merge_delivers_every_event (fname : string) (r : gmap string Z)
    (ins : list input) :
  let s0 := merge fname r ins in
  let name := fname +:+ "-msg-rate" in
  (∃ sched s, exec fname sched s0 = Some s ∧ quiescent fname s)
  ∧ (∀ sched s, exec fname sched s0 = Some s →
                (length sched ≤ 4 * total ins + length ins)%nat)
  ∧ (∀ sched s,
       exec fname sched s0 = Some s → quiescent fname s →
       merged s = []
       ∧ received s ≡ₚ all_events ins
       ∧ length (received s) = total ins
       ∧ count name (meters s) = count name r + Z.of_nat (total ins)
       ∧ (count name r = 0 → count name (meters s) = Z.of_nat (total ins))).
Proof.
  intros s0 name. split; [| split].
  - by apply (reach_quiescent fname (measure s0)).
  - intros sched s Hrun. apply exec_measure in Hrun.
    pose proof (measure_merge fname r ins). fold s0 in H. lia.
  - intros sched s Hrun Hq.
    pose proof (exec_invariant fname _ _ sched s0 s
                  (invariant_merge fname r ins) Hrun)
      as (Hall & Hcount & Hfin).
    apply quiescent_iff in Hq as [Hm Hdone].
    assert (Hnone : concat (pending <$> gors s) = []
                    ∧ marks_due s = 0%nat).
    { unfold marks_due. clear -Hfin Hdone.
      induction (gors s) as [| [p [rest c]] l IH]; [done |].
      apply Forall_cons in Hfin as [Hrest Hfin].
      apply Forall_cons in Hdone as [Hp Hdone].
      destruct (IH Hdone Hfin) as [IH1 IH2].
      rewrite fmap_cons. cbn [concat sum_list_with]. rewrite IH1, IH2.
      unfold pending, at_rest in *. cbn [fst snd events closes] in *.
      destruct Hp as [Hp | (Hp & Hev & _)]; subst p.
      - by rewrite (Hrest eq_refl).
      - by subst rest. }
    destruct Hnone as [Hpend Hmarks].
    unfold in_flight in Hall. rewrite Hm, Hpend, !app_nil_r in Hall.
    rewrite Hm, Hmarks in Hcount. simpl in Hcount.
    assert (Hlen : length (received s) = total ins).
    { rewrite <- length_all_events. by rewrite Hall. }
    fold (meter_name fname) in name.
    repeat split; try done; unfold name; lia.
Qed.

Lemma merge_delivers_every_event_witness :
  ∃ sched s,
    exec "add1" sched (merge "add1" ∅ Sample.three_streams) = Some s
    ∧ quiescent "add1" s
    ∧ length (received s) = 300%nat
    ∧ count "add1-msg-rate" (meters s) = 300.
Proof.
  destruct (merge_delivers_every_event "add1" ∅ Sample.three_streams)
    as ((sched & s & Hrun & Hq) & _ & Hend).
  exists sched, s. split; [exact Hrun |]. split; [exact Hq |].
  destruct (Hend sched s Hrun Hq) as (_ & _ & Hlen & _ & Hcount).
  split; [exact Hlen | exact (Hcount eq_refl)].
Defined.

(** C2, as stated, fails: [GetOrRegisterMeter] hands out the meter that
    is in the registry already, with its count.  With the meter of [add1]
    at seven, merging one input of one event leaves the count at eight,
    not at one. *)
Lemma merge_meter_keeps_old_count :
  ∃ s, exec "add1" [Worker 0; Worker 0; Worker 0; Worker 0; Reader]
         (merge "add1" Sample.used_registry Sample.one_event) = Some s
       ∧ quiescent "add1" s
       ∧ length (received s) = total Sample.one_event
       ∧ total Sample.one_event = 1%nat
       ∧ count "add1-msg-rate" (meters s) = 8
       ∧ count "add1-msg-rate" (meters s)
         ≠ Z.of_nat (total Sample.one_event).
Proof.
  eexists. split; [vm_compute; reflexivity |].
  split.
  - apply quiescent_iff. split; [reflexivity |].
    repeat constructor.
  - repeat split. discriminate.
Qed.

End MergeFacts.

(** ** The de-multiplexer *)

Module DemuxFacts.
Import Demux.

Lemma start_routed (order : list string) (produced : list Event) :
  routed order (start order produced).
Proof.
  unfold routed, start. simpl. split; [done |]. split; [| done].
  intros t l Hl. by rewrite lookup_empty in Hl.
Qed.

Lemma step_routed (fname : string) (order : list string) (a : actor)
    (s s' : state) :
  routed order s → step fname a s = Some s' → routed order s'.
Proof.
  unfold routed, step. intros (Htodo & Houts & Hws) Hstep.
  destruct (fatal s); [discriminate |].
  destruct a as [| i].
  - unfold step_main in Hstep.
    destruct (todo s) as [| topic rest] eqn:Ht; [discriminate |].
    injection Hstep as <-. simpl. split; [| split].
    + intros t Hin. apply Htodo. by right.
    + intros t l Hl. destruct (decide (topic = t)) as [-> | Hne].
      * rewrite lookup_insert_eq in Hl. injection Hl as <-.
        split; [apply Htodo; by left | done].
      * rewrite lookup_insert_ne in Hl by done. by apply Houts.
    + apply Forall_app. split; [| by repeat constructor].
      eapply Forall_impl; [exact Hws |].
      intros [| e | t e]; try done. intros [He Hsome]. split; [done |].
      destruct (decide (topic = t)) as [-> | Hne].
      * by rewrite lookup_insert_eq.
      * by rewrite lookup_insert_ne.
  - unfold step_worker in Hstep.
    destruct (workers s !! i) as [[| e | t e] |] eqn:Hi; [| | | discriminate].
    + destruct (out s) as [| e rest]; [discriminate |].
      injection Hstep as <-. simpl. split; [done |]. split; [done |].
      by apply Forall_insert.
    + destruct (outs s !! Topic e) as [l |] eqn:Hl;
        injection Hstep as <-; simpl; (split; [done |]); (split; [done |]);
        [| done].
      apply Forall_insert; [done |]. split; [done |]. by rewrite Hl.
    + injection Hstep as <-. simpl.
      rewrite Forall_lookup in Hws. destruct (Hws i _ Hi) as [He [l Hl]].
      split; [done |]. split.
      * intros t' l' Hl'. destruct (decide (t = t')) as [-> | Hne].
        -- rewrite lookup_insert_eq in Hl'. injection Hl' as <-.
           destruct (Houts t' l Hl) as [Hin Hall]. split; [done |].
           rewrite Hl. simpl. apply Forall_app. split; [done |].
           by repeat constructor.
        -- rewrite lookup_insert_ne in Hl' by done. by apply Houts.
      * apply Forall_insert; [| done].
        apply Forall_lookup. intros j p Hj. specialize (Hws j p Hj).
        destruct p as [| e' | t' e']; try done.
        destruct Hws as [He' Hsome]. split; [done |].
        destruct (decide (t = t')) as [-> | Hne].
        -- by rewrite lookup_insert_eq.
        -- by rewrite lookup_insert_ne.
Qed.

(** Under every interleaving an event lands on the channel of its own
    topic or on none. *)
Lemma exec_routed (fname : string) (order : list string)
    (sched : list actor) :
  ∀ s s', routed order s → exec fname sched s = Some s' → routed order s'.
Proof.
  induction sched as [| a sched IH]; intros s s' Hinv Hrun; simpl in Hrun.
  - by injection Hrun as <-.
  - destruct (step fname a s) as [s1 |] eqn:Hstep; [| discriminate].
    eapply IH; [| done]. by eapply step_routed.
Qed.

(** A goroutine that looks up an event whose topic has no encoder ends
    the process. *)
Lemma unencoded_topic_is_fatal (fname : string) (order : list string)
    (s : state) (i : nat) (e : Event) :
  routed order s → fatal s = None → Topic e ∉ order →
  workers s !! i = Some (Routing e) →
  ∃ s', step fname (Worker i) s = Some s'
        ∧ fatal s' = Some (Coord.FatalNotWriter fname (Topic e)).
Proof.
  intros (_ & Houts & _) Hlive Hout Hi.
  unfold step, step_worker. rewrite Hlive, Hi.
  destruct (outs s !! Topic e) as [l |] eqn:Hl.
  - destruct (Houts _ _ Hl) as [Hin _]. done.
  - eexists. split; [reflexivity | done].
Qed.

Lemma bound_for_app (t : string) (l k : list Event) :
  bound_for t (l ++ k) = bound_for t l ++ bound_for t k.
Proof. apply filter_app. Qed.

Lemma bound_for_own (e : Event) : bound_for (Topic e) [e] = [e].
Proof. unfold bound_for. by rewrite filter_cons_True. Qed.

Lemma bound_for_other (t : string) (e : Event) :
  Topic e ≠ t → bound_for t [e] = [].
Proof. intros Hne. unfold bound_for. by rewrite filter_cons_False. Qed.

(** With one goroutine every step keeps the per-topic order. *)
Lemma step_in_order (fname : string) (order : list string)
    (produced : list Event) (a : actor) (s s' : state) :
  routed order s → in_order produced s → step fname a s = Some s' →
  in_order produced s'.
Proof.
  unfold in_order, step. intros (_ & _ & Hws) (Hone & Hnew & Heq) Hstep.
  destruct (fatal s); [discriminate |].
  destruct a as [| i].
  - unfold step_main in Hstep.
    destruct (todo s) as [| topic rest] eqn:Ht; [discriminate |].
    simpl in Hone.
    destruct (workers s) as [| w ws] eqn:Hw; [| simpl in Hone; lia].
    destruct rest; [| simpl in Hone; lia].
    injection Hstep as <-. simpl. rewrite ?Hw. simpl.
    split; [lia |]. split; [done |].
    intros t. specialize (Heq t). rewrite (Hnew eq_refl) in Heq |- *.
    rewrite lookup_empty in Heq. simpl in Heq.
    destruct (decide (topic = t)) as [-> | Hne].
    + by rewrite lookup_insert_eq.
    + by rewrite lookup_insert_ne, lookup_empty.
  - unfold step_worker in Hstep.
    destruct (workers s) as [| w [| w' ws]] eqn:Hw;
      [done | | simpl in Hone; lia].
    destruct i as [| i]; [simpl in Hstep | by destruct i].
    assert (Htodo : (length (todo s) + 1 ≤ 1)%nat) by exact Hone.
    destruct w as [| e | t0 e].
    + destruct (out s) as [| e rest] eqn:Hout; [discriminate |].
      injection Hstep as <-. simpl. split; [done |]. split; [done |].
      intros t. rewrite <- (Heq t). simpl.
      by rewrite <- bound_for_app.
    + destruct (outs s !! Topic e) as [l |] eqn:Hl;
        injection Hstep as <-; simpl; rewrite ?Hw; simpl;
        (split; [done |]); (split; [done |]); exact Heq.
    + injection Hstep as <-. simpl. split; [done |]. split; [done |].
      apply Forall_cons in Hws as [[He _] _].
      intros t. rewrite <- (Heq t). simpl.
      destruct (decide (t0 = t)) as [-> | Hne].
      * rewrite lookup_insert_eq. simpl. rewrite <- He, bound_for_own.
        by rewrite <- app_assoc.
      * rewrite lookup_insert_ne by done.
        rewrite bound_for_other by congruence. done.
Qed.

(** When exactly one topic has an encoder a single goroutine runs, and
    under every interleaving each channel carries a prefix of the events
    produced for its topic, in the order the operator produced them. *)
Lemma single_goroutine_keeps_order (fname topic : string)
    (produced : list Event) (sched : list actor) (s : state) :
  exec fname sched (start [topic] produced) = Some s →
  ∀ t, default [] (outs s !! t)
       ++ bound_for t (concat (in_hand <$> workers s))
       ++ bound_for t (out s)
       = bound_for t produced.
Proof.
  intros Hrun.
  assert (Hgen : ∀ sched s0,
            routed [topic] s0 → in_order produced s0 →
            exec fname sched s0 = Some s → in_order produced s).
  { clear Hrun sched. induction sched as [| a sched IH];
      intros s0 Hr Ho Hrun; simpl in Hrun.
    - by injection Hrun as <-.
    - destruct (step fname a s0) as [s1 |] eqn:Hstep; [| discriminate].
      eapply IH; [| | done].
      + by eapply step_routed.
      + by eapply step_in_order. }
  apply (Hgen sched (start [topic] produced)); [apply start_routed | | done].
  unfold in_order, start. simpl. split; [lia |]. split; [done |].
  intros t. by rewrite lookup_empty.
Qed.

(** C3: two goroutines are running as soon as the command topic and one
    more topic have encoders.  The operator emits [first_event] and then
    [second_event], both for [topicB]; the goroutine that received the
    second sends first, and [topicB]'s channel carries them in the
    opposite order. *)
Theorem demux_reorders_events :
  ∃ s, exec "x"
         [Main; Main; Worker 0; Worker 1; Worker 1; Worker 1; Worker 0;
          Worker 0]
         (start ["g-cmd"; "topicB"]
                [Sample.first_event; Sample.second_event]) = Some s
       ∧ fatal s = None
       ∧ out s = []
       ∧ outs s !! "topicB" = Some [Sample.second_event; Sample.first_event]
       ∧ bound_for "topicB" [Sample.first_event; Sample.second_event]
         = [Sample.first_event; Sample.second_event]
       ∧ [Sample.second_event; Sample.first_event]
         ≠ [Sample.first_event; Sample.second_event].
Proof.
  eexists. split; [vm_compute; reflexivity |].
  repeat split; try (vm_compute; reflexivity).
  vm_compute. intros H. discriminate H.
Qed.

(** A goroutine started in the first iteration can look an event up before
    the loop has made the channel of its topic: the process is ended for
    an event whose topic has an encoder. *)
Lemma demux_fatal_for_encoded_topic :
  ∃ s, exec "x" [Main; Worker 0; Worker 0]
         (start ["g-cmd"; "topicB"] [Sample.first_event]) = Some s
       ∧ fatal s = Some (Coord.FatalNotWriter "x" "topicB")
       ∧ "topicB" ∈ ["g-cmd"; "topicB"].
Proof.
  eexists. split; [reflexivity |]. simpl. split; [done |]. set_solver.
Qed.

End DemuxFacts.
